(** * JoggerloadBridges: jogger load on a single-span bridge (main.cpp)

    Shallow embedding of [main.cpp] and the properties of its numerical
    core: the closed-form response [y] with its derivatives [dy] and [ddy],
    the bounded Newton search [newtonsMethod], the frequency band factor
    [joggerLoadFactor] and the arithmetic of [main].

    Number model.  The C++ type [double] (and the two [float] locals of
    [main]) is read as the real line [R]: [+ - * /] are the field
    operations, [cos], [sin], [exp] the real functions, [M_PI] is [PI], and
    the comparisons are the order of [R].  Rounding, overflow and NaN are
    outside this model.  Rocq's [/] is total; a statement whose truth
    could depend on the value of a quotient with a zero divisor carries
    the hypotheses that keep the divisor away from zero. *)

From Stdlib Require Import Reals Lra List Ascii String Bool.
Import ListNotations.

Local Open Scope R_scope.

(** ** Comparisons of [double] as booleans *)

Definition Rleb (x y : R) : bool := if Rle_dec x y then true else false.
Definition Rltb (x y : R) : bool := if Rlt_dec x y then true else false.
Definition Rgeb (x y : R) : bool := Rleb y x.
Definition Rgtb (x y : R) : bool := Rltb y x.

(** ** ResponseModel: [power2], [power3], [ddy], [dy], [y] *)

(** Handy powers of 2 and 3. *)
Definition power2 (x : R) : R := x * x.
Definition power3 (x : R) : R := x * x * x.

(** Second derivative. *)
Definition ddy (t a T : R) : R :=
  (power3 a * T * cos (a * t) - power2 a * sin (a * t) + a * exp (- t / T) / T)
  / (power2 (a * T) + 1).

(** First derivative. *)
Definition dy (t a T : R) : R :=
  (power2 a * T * sin (a * t) + a * cos (a * t) - a * exp (- t / T))
  / (power2 (a * T) + 1).

(** Amplitude ratio as a function of time. *)
Definition y (t a T : R) : R :=
  (- a * T * cos (a * t) + a * T * exp (- t / T) + sin (a * t))
  / (power2 (a * T) + 1).

(** The closed forms as the specification writes them, with powers and
    the quotient [a/T]; they are compared with the program's functions
    above. *)
Module Closed.

Definition denom (a T : R) : R := (a * T) ^ 2 + 1.

Definition y (t a T : R) : R :=
  (- (a * T * cos (a * t)) + a * T * exp (- (t / T)) + sin (a * t))
  / denom a T.

Definition dy (t a T : R) : R :=
  (a ^ 2 * T * sin (a * t) + a * cos (a * t) - a * exp (- (t / T)))
  / denom a T.

Definition ddy (t a T : R) : R :=
  (a ^ 3 * T * cos (a * t) - a ^ 2 * sin (a * t) + (a / T) * exp (- (t / T)))
  / denom a T.

End Closed.

(** ** PeakFinder: [newtonsMethod] *)

(** The first three statements of the loop body: the root of the tangent
    line [A*t + B] of [dy] at the current [t]. *)
Definition newton_update (a T t : R) : R :=
  let A := ddy t a T in
  let B := dy t a T - A * t in
  - B / A.

(** One pass through the body of the [for] loop: the update followed by
    the two [if] statements, in the order of the source. *)
Definition loop_body (a T t_max t : R) : R :=
  let t := newton_update a T t in
  let t := if Rgtb t t_max then t_max else t in
  let t := if Rltb t 0 then 0.45 * t_max else t in
  t.

(** [for (unsigned int i = 0; i < n; ++i) t = body(t);] *)
Fixpoint for_loop (n : nat) (body : R -> R) (t : R) : R :=
  match n with
  | O => t
  | S n' => for_loop n' body (body t)
  end.

Definition newtonsMethod (a T : R) : R :=
  let t_max := PI / a in
  let t := t_max * 0.75 in
  for_loop 6 (loop_body a T t_max) t.

(** ** LoadFactorModel: [joggerLoadFactor] *)

Definition joggerLoadFactor (f : R) : R :=
  if Rleb f 1.9 || Rgeb f 3.5 then 0
  else if Rltb f 2.2 then (f - 1.9) * (2.2 - 1.9)
  else if Rleb f 2.7 then 1
  else - (f - 3.5) * (3.5 - 2.7).

(** ** Orchestration: [processArg] and [main] *)

Record flags : Set := Flags { plot : bool; overrideVelocity : bool }.

(** [arg[0] == '-'], then [arg[1]] is ['p'] or ['v'] and [arg[2]] is the
    terminating zero. *)
Definition processArg (arg : string) (g : flags) : flags :=
  match arg with
  | String "-"%char (String c EmptyString) =>
      if Ascii.eqb c "p"%char then Flags true (overrideVelocity g)
      else if Ascii.eqb c "v"%char then Flags (plot g) true
      else g
  | _ => g
  end.

(** Standard input as the list of numbers still to be read.  [cin x s]
    is [cin >> x] for a variable that holds [x]: the next number, or, when
    none is left, the value the variable already had.  The source never
    tests the stream. *)
Definition stdin : Type := list R.

Definition cin (x : R) (s : stdin) : R * stdin :=
  match s with
  | x' :: s' => (x', s')
  | [] => (x, [])
  end.

(** The numbers [main] prints, in the order it prints them. *)
Record report : Type := Report {
  jogger_load : R;
  plot_samples : list (R * R);
  t_peak : R;
  walk_time : R;
  t_percent : R;
  y_max_percent : R;
  max_acceleration : R
}.

(** The argument loop of [main], from index 1: [argv] includes the program
    name, which is skipped.  Both flags start [false]. *)
Definition processArgs (argv : list string) : flags :=
  fold_left (fun g arg => processArg arg g) (tl argv) (Flags false false).

(** [m0] is what the uninitialised [float m] holds before [cin >> m]; it
    is used only when no number is left for [m]. *)
Definition main (argv : list string) (input : stdin) (m0 : R) : report :=
  let L := 10 in
  let v := 3 in
  let f := 2.8 in
  let z := 0.006 in
  let g := processArgs argv in
  let '(f, input) := cin f input in
  let F := joggerLoadFactor f * 1250 in
  let '(L, input) := cin L input in
  let '(v, input) := if overrideVelocity g then cin v input else (v, input) in
  let '(z, input) := cin z input in
  let a := PI * v / L in
  let T := 1 / (2 * PI * f * z) in
  let samples :=
    if plot g
    then map (fun i => let t := INR i * 20.0 / 100 in (t, y t a T)) (seq 0 100)
    else [] in
  let t := newtonsMethod a T in
  let walkTime := L / v in
  let y_max_ratio := y t a T in
  let '(m, input) := cin m0 input in
  Report F samples t walkTime (t * 100 / walkTime) (y_max_ratio * 100)
         (y_max_ratio * 1250 * joggerLoadFactor f / (2 * m * z)).

(** The numbers a run reads, given what it was started with: the velocity
    is asked for only under [-v]. *)
Definition console_input (argv : list string) (L v f z m : R) : stdin :=
  if overrideVelocity (processArgs argv) then [f; L; v; z; m] else [f; L; z; m].

(** The velocity a run computes with: the one read under [-v], otherwise
    the assumed 3 m/s. *)
Definition velocity_used (argv : list string) (v : R) : R :=
  if overrideVelocity (processArgs argv) then v else 3.

(** * Properties *)

(** ** Comparisons *)

Lemma Rleb_true x y : Rleb x y = true <-> x <= y.
Proof. unfold Rleb; destruct (Rle_dec x y); intuition congruence. Qed.

Lemma Rleb_false x y : Rleb x y = false <-> y < x.
Proof.
  unfold Rleb; destruct (Rle_dec x y); split; intro H; try congruence; lra.
Qed.

Lemma Rltb_true x y : Rltb x y = true <-> x < y.
Proof. unfold Rltb; destruct (Rlt_dec x y); intuition congruence. Qed.

Lemma Rltb_false x y : Rltb x y = false <-> y <= x.
Proof.
  unfold Rltb; destruct (Rlt_dec x y); split; intro H; try congruence; lra.
Qed.

(** ** The common denominator *)

Lemma denominator_ge_1 (a T : R) : 1 <= power2 (a * T) + 1.
Proof. unfold power2; nra. Qed.

Lemma denominator_neq_0 (a T : R) : power2 (a * T) + 1 <> 0.
Proof. pose proof (denominator_ge_1 a T); lra. Qed.

Lemma closed_denom (a T : R) : Closed.denom a T = power2 (a * T) + 1.
Proof. unfold Closed.denom, power2; ring. Qed.

Lemma exp_arg (t T : R) : - t / T = - (t / T).
Proof. unfold Rdiv; ring. Qed.

(** ** ResponseModel *)

(** C2: on the domain t >= 0, a > 0, T > 0 the three functions of the
    program are the closed forms of the specification. *)
Theorem response_closed_forms (t a T : R) :
  0 <= t -> 0 < a -> 0 < T ->
  y t a T = Closed.y t a T /\
  dy t a T = Closed.dy t a T /\
  ddy t a T = Closed.ddy t a T.
Proof.
  intros _ _ HT.
  unfold y, dy, ddy, Closed.y, Closed.dy, Closed.ddy.
  rewrite closed_denom, exp_arg.
  pose proof (denominator_neq_0 a T) as Hd.
  unfold power2, power3 in *.
  repeat split; field; repeat split; lra.
Qed.

Lemma response_closed_forms_witness :
  (0 <= 1 /\ 0 < 2 /\ 0 < 3) /\
  y 1 2 3 = Closed.y 1 2 3 /\
  dy 1 2 3 = Closed.dy 1 2 3 /\
  ddy 1 2 3 = Closed.ddy 1 2 3.
Proof. split; [lra | apply (response_closed_forms 1 2 3); lra]. Defined.

(** C7: the response ratio starts at zero, y(0,a,T) = 0 for a > 0 and
    T > 0. *)
Theorem y_at_0 (a T : R) : 0 < a -> 0 < T -> y 0 a T = 0.
Proof.
  intros _ _. unfold y.
  replace (- 0 / T) with 0 by (unfold Rdiv; ring).
  rewrite Rmult_0_r, cos_0, sin_0, exp_0.
  unfold Rdiv; ring.
Qed.

Lemma y_at_0_witness : (0 < 1 /\ 0 < 1) /\ y 0 1 1 = 0.
Proof. split; [lra | apply (y_at_0 1 1); lra]. Defined.

(** ** LoadFactorModel *)

(** Splits [joggerLoadFactor f] into its four branches, each with the
    order facts that select it. *)
Ltac load_factor_cases f :=
  unfold joggerLoadFactor, Rgeb;
  let H1 := fresh "Hlo" in
  let H2 := fresh "Hhi" in
  let H3 := fresh "Hup" in
  let H4 := fresh "Hpl" in
  destruct (Rleb f 1.9) eqn:H1;
  [ apply Rleb_true in H1 | apply Rleb_false in H1 ];
  destruct (Rleb 3.5 f) eqn:H2;
  [ apply Rleb_true in H2 | apply Rleb_false in H2 | apply Rleb_true in H2
  | apply Rleb_false in H2 ];
  cbn [orb];
  try (destruct (Rltb f 2.2) eqn:H3;
       [ apply Rltb_true in H3 | apply Rltb_false in H3 ];
       try (destruct (Rleb f 2.7) eqn:H4;
            [ apply Rleb_true in H4 | apply Rleb_false in H4 ])).

(** C4: the load factor is the piecewise function of the specification:
    0 for f <= 1.9 or f >= 3.5, (f-1.9)*(2.2-1.9) on (1.9, 2.2), 1 on
    [2.2, 2.7] and -(f-3.5)*(3.5-2.7) on (2.7, 3.5); in particular it is 0
    at 1.9 and at 3.5 and 1 on the whole plateau. *)
Theorem joggerLoadFactor_piecewise :
  (forall f : R,
     (f <= 1.9 \/ f >= 3.5 -> joggerLoadFactor f = 0) /\
     (1.9 < f < 2.2 -> joggerLoadFactor f = (f - 1.9) * (2.2 - 1.9)) /\
     (2.2 <= f <= 2.7 -> joggerLoadFactor f = 1) /\
     (2.7 < f < 3.5 -> joggerLoadFactor f = - (f - 3.5) * (3.5 - 2.7))) /\
  joggerLoadFactor 1.9 = 0 /\
  joggerLoadFactor 3.5 = 0 /\
  (forall f : R, 2.2 <= f <= 2.7 -> joggerLoadFactor f = 1).
Proof.
  assert (Hpw : forall f : R,
     (f <= 1.9 \/ f >= 3.5 -> joggerLoadFactor f = 0) /\
     (1.9 < f < 2.2 -> joggerLoadFactor f = (f - 1.9) * (2.2 - 1.9)) /\
     (2.2 <= f <= 2.7 -> joggerLoadFactor f = 1) /\
     (2.7 < f < 3.5 -> joggerLoadFactor f = - (f - 3.5) * (3.5 - 2.7))).
  { intro f; repeat split; intro H; load_factor_cases f;
      try reflexivity; lra. }
  split; [exact Hpw | ].
  split; [apply (Hpw 1.9); left; lra | ].
  split; [apply (Hpw 3.5); right; lra | ].
  intros f H; apply (Hpw f); exact H.
Qed.

(** C8: the load factor lies in the closed interval [0,1] for every real
    frequency. *)
Theorem joggerLoadFactor_range (f : R) : 0 <= joggerLoadFactor f <= 1.
Proof. load_factor_cases f; lra. Qed.

(** C10: the load factor is non-decreasing on f <= 2.7 and non-increasing
    on f >= 2.2, the jumps at 2.2 and 2.7 included. *)
Theorem joggerLoadFactor_monotone :
  (forall f1 f2 : R,
     f1 <= f2 -> f2 <= 2.7 -> joggerLoadFactor f1 <= joggerLoadFactor f2) /\
  (forall f1 f2 : R,
     2.2 <= f1 -> f1 <= f2 -> joggerLoadFactor f1 >= joggerLoadFactor f2).
Proof.
  split; intros f1 f2 H1 H2.
  - load_factor_cases f1; load_factor_cases f2; lra.
  - load_factor_cases f1; load_factor_cases f2; lra.
Qed.

(** ** PeakFinder *)

(** C6: when the curvature ddy(t,a,T) is not zero, the x-intercept -B/A
    of the tangent line, with A = ddy(t,a,T) and B = dy(t,a,T) - A*t, is
    the Newton update t - dy(t,a,T)/ddy(t,a,T). *)
Theorem newton_update_standard (a T t : R) :
  ddy t a T <> 0 ->
  newton_update a T t = t - dy t a T / ddy t a T.
Proof.
  intro HA. unfold newton_update. cbv zeta.
  field. exact HA.
Qed.

Lemma ddy_at_0 : ddy 0 1 1 = 1.
Proof.
  unfold ddy, power2, power3.
  replace (- 0 / 1) with 0 by (unfold Rdiv; ring).
  rewrite Rmult_0_r, cos_0, sin_0, exp_0. field.
Qed.

Lemma newton_update_standard_witness :
  ddy 0 1 1 <> 0 /\ newton_update 1 1 0 = 0 - dy 0 1 1 / ddy 0 1 1.
Proof.
  assert (H : ddy 0 1 1 <> 0) by (rewrite ddy_at_0; lra).
  split; [exact H | apply (newton_update_standard 1 1 0 H)].
Defined.

(** The two [if] statements bring any candidate back into the window:
    whatever real number the update produced, the value left in [t] at
    the end of the body lies in [0, t_max].  In particular the bound does
    not depend on the value of the quotient [-B/A]. *)
Lemma loop_body_range (a T t_max t : R) :
  0 <= t_max -> 0 <= loop_body a T t_max t <= t_max.
Proof.
  intro Hm. unfold loop_body, Rgtb. cbv zeta.
  destruct (Rltb t_max (newton_update a T t)) eqn:Hgt.
  - destruct (Rltb t_max 0) eqn:Hlt.
    + apply Rltb_true in Hlt; lra.
    + lra.
  - apply Rltb_false in Hgt.
    destruct (Rltb (newton_update a T t) 0) eqn:Hlt.
    + lra.
    + apply Rltb_false in Hlt; lra.
Qed.

(** A property kept by the body and true of the start holds when the
    loop ends. *)
Lemma for_loop_invariant (P : R -> Prop) (body : R -> R) :
  (forall t, P t -> P (body t)) ->
  forall n t, P t -> P (for_loop n body t).
Proof.
  intros Hstep n; induction n as [| n IH]; intros t Ht; cbn.
  - exact Ht.
  - apply IH, Hstep, Ht.
Qed.

Lemma t_max_pos (a : R) : 0 < a -> 0 < PI / a.
Proof. intro Ha; apply Rdiv_lt_0_compat; [apply PI_RGT_0 | exact Ha]. Qed.

(** C1: for a > 0 and T > 0 the peak time returned by [newtonsMethod]
    (start at 0.75*pi/a, six passes of update and clamp) lies in the
    closed interval [0, pi/a]. *)
Theorem newtonsMethod_range (a T : R) :
  0 < a -> 0 < T -> 0 <= newtonsMethod a T <= PI / a.
Proof.
  intros Ha _. pose proof (t_max_pos a Ha) as Hm.
  unfold newtonsMethod. cbv zeta.
  apply (for_loop_invariant (fun t => 0 <= t <= PI / a)).
  - intros t _. apply loop_body_range; lra.
  - lra.
Qed.

Lemma newtonsMethod_range_witness :
  (0 < 1 /\ 0 < 1) /\ 0 <= newtonsMethod 1 1 <= PI / 1.
Proof. split; [lra | apply (newtonsMethod_range 1 1); lra]. Defined.

(** ** Orchestration *)

Example processArg_p : processArg "-p" (Flags false false) = Flags true false.
Proof. reflexivity. Qed.

Example processArg_v : processArg "-v" (Flags false false) = Flags false true.
Proof. reflexivity. Qed.

Example processArg_other :
  map (fun arg => processArg arg (Flags false false))
      ["-pv"; "-"; "p"; "-x"; ""]%string
  = repeat (Flags false false) 5.
Proof. reflexivity. Qed.

Lemma processArgs_v :
  overrideVelocity (processArgs ["jogger"; "-v"]%string) = true.
Proof. reflexivity. Qed.

(** The reference scenario of the specification: at 2.8 Hz the factor is
    0.56. *)
Example joggerLoadFactor_reference : joggerLoadFactor 2.8 = 0.56.
Proof. load_factor_cases 2.8; lra. Qed.

(** C5: for positive L, v, f, z, m, with a = pi*v/L, T = 1/(2*pi*f*z),
    t* = newtonsMethod(a,T) and y_max_ratio = y(t*,a,T), the maximal
    acceleration per jogger that [main] prints is
    y_max_ratio * 1250 * joggerLoadFactor(f) / (2*m*z).  Here v is the
    velocity the run computes with. *)
Theorem main_max_acceleration (argv : list string) (L v f z m m0 : R) :
  0 < L -> 0 < v -> 0 < f -> 0 < z -> 0 < m ->
  let a := PI * velocity_used argv v / L in
  let T := 1 / (2 * PI * f * z) in
  let t_star := newtonsMethod a T in
  let y_max_ratio := y t_star a T in
  max_acceleration (main argv (console_input argv L v f z m) m0)
  = y_max_ratio * 1250 * joggerLoadFactor f / (2 * m * z).
Proof.
  intros _ _ _ _ _. cbv zeta.
  unfold main, console_input, velocity_used. cbv zeta.
  destruct (overrideVelocity (processArgs argv)); reflexivity.
Qed.

Lemma main_max_acceleration_witness :
  (0 < 10 /\ 0 < 3 /\ 0 < 2.8 /\ 0 < 0.006 /\ 0 < 1000) /\
  max_acceleration
    (main ["jogger"; "-v"]%string [2.8; 10; 3; 0.006; 1000] 0)
  = y (newtonsMethod (PI * 3 / 10) (1 / (2 * PI * 2.8 * 0.006)))
      (PI * 3 / 10) (1 / (2 * PI * 2.8 * 0.006))
    * 1250 * joggerLoadFactor 2.8 / (2 * 1000 * 0.006).
Proof.
  split; [lra | ].
  apply (main_max_acceleration ["jogger"; "-v"]%string 10 3 2.8 0.006 1000 0);
    lra.
Defined.

(** ** Derivatives of the response

    [derivable_pt_lim f x l] says that [f] has derivative [l] at [x]. *)

Lemma D_linear (c x : R) : derivable_pt_lim (fun t => c * t) x c.
Proof.
  apply (derivable_pt_lim_ext (mult_real_fct c id)); [reflexivity | ].
  replace c with (c * 1) at 2 by ring.
  apply derivable_pt_lim_scal, derivable_pt_lim_id.
Qed.

Lemma D_sin_linear (a x : R) :
  derivable_pt_lim (fun t => sin (a * t)) x (a * cos (a * x)).
Proof.
  rewrite Rmult_comm.
  apply (derivable_pt_lim_comp (fun t => a * t) sin).
  - apply D_linear.
  - apply derivable_pt_lim_sin.
Qed.

Lemma D_cos_linear (a x : R) :
  derivable_pt_lim (fun t => cos (a * t)) x (- a * sin (a * x)).
Proof.
  replace (- a * sin (a * x)) with (- sin (a * x) * a) by ring.
  apply (derivable_pt_lim_comp (fun t => a * t) cos).
  - apply D_linear.
  - apply derivable_pt_lim_cos.
Qed.

Lemma D_exp_decay (T x : R) :
  derivable_pt_lim (fun t => exp (- t / T)) x (- / T * exp (- x / T)).
Proof.
  rewrite Rmult_comm.
  apply (derivable_pt_lim_ext (comp exp (fun t => - / T * t))).
  - intro z; unfold comp; f_equal; unfold Rdiv; ring.
  - replace (- x / T) with (- / T * x) by (unfold Rdiv; ring).
    apply (derivable_pt_lim_comp (fun t => - / T * t) exp).
    + apply D_linear.
    + apply derivable_pt_lim_exp.
Qed.

Lemma D_combination (f1 f2 f3 : R -> R) (c1 c2 c3 d x l1 l2 l3 : R) :
  derivable_pt_lim f1 x l1 ->
  derivable_pt_lim f2 x l2 ->
  derivable_pt_lim f3 x l3 ->
  derivable_pt_lim (fun t => (c1 * f1 t + c2 * f2 t + c3 * f3 t) / d) x
                   ((c1 * l1 + c2 * l2 + c3 * l3) / d).
Proof.
  intros H1 H2 H3.
  apply (derivable_pt_lim_ext
           (mult_real_fct (/ d)
              (plus_fct (plus_fct (mult_real_fct c1 f1) (mult_real_fct c2 f2))
                        (mult_real_fct c3 f3)))).
  - intro z; unfold mult_real_fct, plus_fct, Rdiv; ring.
  - replace ((c1 * l1 + c2 * l2 + c3 * l3) / d)
      with (/ d * (c1 * l1 + c2 * l2 + c3 * l3)) by (unfold Rdiv; ring).
    apply derivable_pt_lim_scal.
    repeat apply derivable_pt_lim_plus;
      apply derivable_pt_lim_scal; assumption.
Qed.

(** C3: for a > 0 and T > 0, at every time t the derivative of
    t |-> y(t,a,T) is dy(t,a,T) and the derivative of t |-> dy(t,a,T) is
    ddy(t,a,T). *)
Theorem response_derivatives (a T : R) :
  0 < a -> 0 < T ->
  forall t : R,
    derivable_pt_lim (fun s => y s a T) t (dy t a T) /\
    derivable_pt_lim (fun s => dy s a T) t (ddy t a T).
Proof.
  intros _ HT t.
  pose proof (denominator_neq_0 a T) as Hd.
  pose proof (D_sin_linear a t) as Hsin.
  pose proof (D_cos_linear a t) as Hcos.
  pose proof (D_exp_decay T t) as Hexp.
  split.
  - apply (derivable_pt_lim_ext
             (fun s => ((- a * T) * cos (a * s) + (a * T) * exp (- s / T)
                        + 1 * sin (a * s)) / (power2 (a * T) + 1))).
    + intro z; unfold y; f_equal; ring.
    + replace (dy t a T)
        with (((- a * T) * (- a * sin (a * t))
               + (a * T) * (- / T * exp (- t / T))
               + 1 * (a * cos (a * t))) / (power2 (a * T) + 1)).
      * apply D_combination; assumption.
      * unfold dy, power2 in *; field; split; lra.
  - apply (derivable_pt_lim_ext
             (fun s => ((power2 a * T) * sin (a * s) + a * cos (a * s)
                        + (- a) * exp (- s / T)) / (power2 (a * T) + 1))).
    + intro z; unfold dy; f_equal; ring.
    + replace (ddy t a T)
        with (((power2 a * T) * (a * cos (a * t))
               + a * (- a * sin (a * t))
               + (- a) * (- / T * exp (- t / T))) / (power2 (a * T) + 1)).
      * apply D_combination; assumption.
      * unfold ddy, power2, power3 in *; field; split; lra.
Qed.

Lemma response_derivatives_witness :
  (0 < 1 /\ 0 < 2) /\
  derivable_pt_lim (fun s => y s 1 2) 0 (dy 0 1 2) /\
  derivable_pt_lim (fun s => dy s 1 2) 0 (ddy 0 1 2).
Proof. split; [lra | apply (response_derivatives 1 2); lra]. Defined.

(** * Further properties of the program *)

(** ** Command-line flags *)

(** [processArg] by cases on the whole argument. *)
Lemma processArg_cases (arg : string) (g : flags) :
  processArg arg g =
  if String.eqb arg "-p" then Flags true (overrideVelocity g)
  else if String.eqb arg "-v" then Flags (plot g) true
  else g.
Proof.
  destruct g as [p o].
  destruct arg as [| c0 [| c1 [| c2 rest]]]; try reflexivity.
  - destruct c0 as [[] [] [] [] [] [] [] []]; reflexivity.
  - destruct c0 as [[] [] [] [] [] [] [] []]; try reflexivity;
      destruct c1 as [[] [] [] [] [] [] [] []]; reflexivity.
  - destruct c0 as [[] [] [] [] [] [] [] []]; try reflexivity;
      destruct c1 as [[] [] [] [] [] [] [] []]; reflexivity.
Qed.

Lemma fold_processArg (l : list string) (g : flags) :
  fold_left (fun g arg => processArg arg g) l g
  = Flags (plot g || existsb (String.eqb "-p") l)
          (overrideVelocity g || existsb (String.eqb "-v") l).
Proof.
  revert g; induction l as [| arg l IH]; intros [p o]; cbn [fold_left existsb].
  - now rewrite !orb_false_r.
  - rewrite IH, processArg_cases.
    rewrite (String.eqb_sym "-p" arg), (String.eqb_sym "-v" arg).
    destruct (String.eqb arg "-p") eqn:Ep.
    + apply String.eqb_eq in Ep; subst arg; cbn.
      now rewrite orb_true_r.
    + destruct (String.eqb arg "-v") eqn:Ev; cbn.
      * now rewrite orb_true_r.
      * reflexivity.
Qed.

(** X1: after the argument loop the plot flag is set exactly when some
    argument after the program name is "-p", and the velocity flag exactly
    when one is "-v"; order, repetition and other arguments play no
    part. *)
Theorem processArgs_flags (argv : list string) :
  (plot (processArgs argv) = true <-> In "-p"%string (tl argv)) /\
  (overrideVelocity (processArgs argv) = true <-> In "-v"%string (tl argv)).
Proof.
  unfold processArgs. rewrite fold_processArg. cbn [plot overrideVelocity orb].
  split; rewrite existsb_exists; split.
  - intros [x [Hin Hx]]. apply String.eqb_eq in Hx. now subst x.
  - intro Hin. exists "-p"%string. split; [exact Hin | apply String.eqb_refl].
  - intros [x [Hin Hx]]. apply String.eqb_eq in Hx. now subst x.
  - intro Hin. exists "-v"%string. split; [exact Hin | apply String.eqb_refl].
Qed.

(** X2: an argument other than "-p" and "-v" (a combined "-pv", a bare
    "-", a word without dash) changes neither flag, and no argument ever
    clears a flag that is set. *)
Theorem processArg_other_args (arg : string) (g : flags) :
  (arg <> "-p"%string -> arg <> "-v"%string -> processArg arg g = g) /\
  (plot g = true -> plot (processArg arg g) = true) /\
  (overrideVelocity g = true -> overrideVelocity (processArg arg g) = true).
Proof.
  rewrite processArg_cases.
  destruct (String.eqb arg "-p") eqn:Ep; [| destruct (String.eqb arg "-v") eqn:Ev].
  - apply String.eqb_eq in Ep. repeat split; intros; [contradiction | assumption].
  - apply String.eqb_eq in Ev. repeat split; intros; [contradiction | assumption].
  - repeat split; intros; assumption.
Qed.

(** ** Load factor: zero set and the gap below the plateau *)

(** X3: the load factor is zero exactly outside the open band
    (1.9, 3.5), and strictly positive inside it. *)
Theorem joggerLoadFactor_zero_iff (f : R) :
  (joggerLoadFactor f = 0 <-> f <= 1.9 \/ f >= 3.5) /\
  (0 < joggerLoadFactor f <-> 1.9 < f < 3.5).
Proof.
  load_factor_cases f; repeat split; intros; try lra; try nra.
Qed.

(** X4: the ramps do not reach the plateau: off the plateau [2.2, 2.7]
    the load factor stays below 0.09 on the low side and below 0.64 on the
    high side, so it jumps at both plateau edges. *)
Theorem joggerLoadFactor_gap (f : R) :
  (f < 2.2 -> joggerLoadFactor f < 0.09) /\
  (2.7 < f -> joggerLoadFactor f < 0.64).
Proof.
  split; intro H; load_factor_cases f; lra.
Qed.

(** ** The response as the solution of a first-order lag *)

(** X5: for T <> 0 the response obeys the lag equation
    T*y' + y = sin(a*t) with the program's own derivative:
    T*dy(t,a,T) + y(t,a,T) = sin(a*t) for all real t and a. *)
Theorem response_lag_equation (t a T : R) :
  T <> 0 -> T * dy t a T + y t a T = sin (a * t).
Proof.
  intros _. pose proof (denominator_neq_0 a T) as Hd.
  unfold dy, y, power2 in *. field. exact Hd.
Qed.

Lemma response_lag_equation_witness :
  1 <> 0 /\ 1 * dy 2 3 1 + y 2 3 1 = sin (3 * 2).
Proof. split; [lra | apply (response_lag_equation 2 3 1); lra]. Defined.

(** X6: differentiated once more: for T <> 0,
    T*ddy(t,a,T) + dy(t,a,T) = a*cos(a*t). *)
Theorem response_lag_equation_dy (t a T : R) :
  T <> 0 -> T * ddy t a T + dy t a T = a * cos (a * t).
Proof.
  intro HT. pose proof (denominator_neq_0 a T) as Hd.
  unfold ddy, dy, power2, power3 in *. field. split; assumption.
Qed.

Lemma response_lag_equation_dy_witness :
  1 <> 0 /\ 1 * ddy 2 3 1 + dy 2 3 1 = 3 * cos (3 * 2).
Proof. split; [lra | apply (response_lag_equation_dy 2 3 1); lra]. Defined.

Lemma zero_start (a T : R) : y 0 a T = 0 /\ dy 0 a T = 0.
Proof.
  unfold y, dy.
  replace (- 0 / T) with 0 by (unfold Rdiv; ring).
  rewrite Rmult_0_r, cos_0, sin_0, exp_0.
  split; unfold Rdiv; ring.
Qed.

(** X7: for T <> 0, at time zero the slope dy(0,a,T) is zero and the
    curvature ddy(0,a,T) is a/T: t = 0 is itself a stationary point of y,
    a minimum when a and T are positive. *)
Theorem response_start (a T : R) :
  T <> 0 -> dy 0 a T = 0 /\ ddy 0 a T = a / T.
Proof.
  intro HT. split; [apply zero_start | ].
  pose proof (denominator_neq_0 a T) as Hd.
  unfold ddy.
  replace (- 0 / T) with 0 by (unfold Rdiv; ring).
  rewrite Rmult_0_r, cos_0, sin_0, exp_0.
  unfold power2, power3 in *. field. split; assumption.
Qed.

Lemma response_start_witness :
  2 <> 0 /\ dy 0 3 2 = 0 /\ ddy 0 3 2 = 3 / 2.
Proof. split; [lra | apply (response_start 3 2); lra]. Defined.

(** ** Newton search: fixed points and the sign of [a] *)

Lemma loop_body_fixed (a T t_max t : R) :
  dy t a T = 0 -> ddy t a T <> 0 -> 0 <= t <= t_max ->
  loop_body a T t_max t = t.
Proof.
  intros Hdy HA [H0 Hm].
  assert (Hu : newton_update a T t = t).
  { unfold newton_update. cbv zeta. rewrite Hdy. field. exact HA. }
  unfold loop_body, Rgtb. cbv zeta. rewrite Hu.
  destruct (Rltb t_max t) eqn:E1; [apply Rltb_true in E1; lra | ].
  destruct (Rltb t 0) eqn:E2; [apply Rltb_true in E2; lra | reflexivity].
Qed.

(** X8: a stationary point of y inside the window with nonzero curvature
    is kept by the loop: if dy(t) = 0, ddy(t) <> 0 and 0 <= t <= t_max,
    then any number of passes of the loop body started at t returns t. *)
Theorem newton_keeps_stationary_point (a T t_max t : R) (n : nat) :
  dy t a T = 0 -> ddy t a T <> 0 -> 0 <= t <= t_max ->
  for_loop n (loop_body a T t_max) t = t.
Proof.
  intros Hdy HA Hw. induction n as [| n IH]; cbn [for_loop].
  - reflexivity.
  - rewrite (loop_body_fixed a T t_max t Hdy HA Hw). exact IH.
Qed.

Lemma newton_keeps_stationary_point_witness :
  (dy 0 1 1 = 0 /\ ddy 0 1 1 <> 0 /\ 0 <= 0 <= 5) /\
  for_loop 6 (loop_body 1 1 5) 0 = 0.
Proof.
  assert (H1 : dy 0 1 1 = 0) by apply zero_start.
  assert (H2 : ddy 0 1 1 <> 0) by (rewrite ddy_at_0; lra).
  assert (H3 : 0 <= 0 <= 5) by lra.
  split; [repeat split; try assumption; lra | ].
  apply (newton_keeps_stationary_point 1 1 5 0 6 H1 H2 H3).
Defined.

Lemma loop_body_negative_window (a T t_max t : R) :
  t_max < 0 -> loop_body a T t_max t = 0.45 * t_max.
Proof.
  intro Hm. unfold loop_body, Rgtb. cbv zeta.
  destruct (Rltb t_max (newton_update a T t)) eqn:E1.
  - destruct (Rltb t_max 0) eqn:E2; [reflexivity | apply Rltb_false in E2; lra].
  - apply Rltb_false in E1.
    destruct (Rltb (newton_update a T t) 0) eqn:E2;
      [reflexivity | apply Rltb_false in E2; lra].
Qed.

(** X9: for a negative angular frequency a and T <> 0 the window bound
    pi/a is negative, every pass of the loop ends in the reset to
    0.45*t_max, and the search returns 0.45*(pi/a): a negative time. *)
Theorem newtonsMethod_negative_a (a T : R) :
  a < 0 -> T <> 0 ->
  newtonsMethod a T = 0.45 * (PI / a) /\ newtonsMethod a T < 0.
Proof.
  intros Ha _.
  assert (Hm : PI / a < 0).
  { pose proof PI_RGT_0 as Hpi.
    assert (Hi : / a < 0) by (apply Rinv_lt_0_compat; exact Ha).
    unfold Rdiv; nra. }
  assert (E : newtonsMethod a T = 0.45 * (PI / a)).
  { unfold newtonsMethod. cbv zeta. cbn [for_loop].
    rewrite !(loop_body_negative_window a T (PI / a) _ Hm). reflexivity. }
  split; [exact E | rewrite E; lra].
Qed.

Lemma newtonsMethod_negative_a_witness :
  (-1 < 0 /\ 1 <> 0) /\
  newtonsMethod (-1) 1 = 0.45 * (PI / -1) /\ newtonsMethod (-1) 1 < 0.
Proof. split; [lra | apply (newtonsMethod_negative_a (-1) 1); lra]. Defined.

(** ** Bounds on the response *)

Lemma D_y (a T t : R) :
  T <> 0 -> derivable_pt_lim (fun s => y s a T) t (dy t a T).
Proof.
  intro HT. pose proof (denominator_neq_0 a T) as Hd.
  apply (derivable_pt_lim_ext
           (fun s => ((- a * T) * cos (a * s) + (a * T) * exp (- s / T)
                      + 1 * sin (a * s)) / (power2 (a * T) + 1))).
  - intro z; unfold y; f_equal; ring.
  - replace (dy t a T)
      with (((- a * T) * (- a * sin (a * t))
             + (a * T) * (- / T * exp (- t / T))
             + 1 * (a * cos (a * t))) / (power2 (a * T) + 1)).
    + apply D_combination;
        [apply D_cos_linear | apply D_exp_decay | apply D_sin_linear].
    + unfold dy, power2 in *; field; split; assumption.
Qed.

Lemma D_dy (a T t : R) :
  T <> 0 -> derivable_pt_lim (fun s => dy s a T) t (ddy t a T).
Proof.
  intro HT. pose proof (denominator_neq_0 a T) as Hd.
  apply (derivable_pt_lim_ext
           (fun s => ((power2 a * T) * sin (a * s) + a * cos (a * s)
                      + (- a) * exp (- s / T)) / (power2 (a * T) + 1))).
  - intro z; unfold dy; f_equal; ring.
  - replace (ddy t a T)
      with (((power2 a * T) * (a * cos (a * t))
             + a * (- a * sin (a * t))
             + (- a) * (- / T * exp (- t / T))) / (power2 (a * T) + 1)).
    + apply D_combination;
        [apply D_sin_linear | apply D_cos_linear | apply D_exp_decay].
    + unfold ddy, power2, power3 in *; field; split; assumption.
Qed.

Lemma D_exp_growth (T x : R) :
  derivable_pt_lim (fun t => exp (t / T)) x (/ T * exp (x / T)).
Proof.
  rewrite Rmult_comm.
  apply (derivable_pt_lim_ext (comp exp (fun t => / T * t))).
  - intro z; unfold comp; f_equal; unfold Rdiv; ring.
  - replace (x / T) with (/ T * x) by (unfold Rdiv; ring).
    apply (derivable_pt_lim_comp (fun t => / T * t) exp).
    + apply D_linear.
    + apply derivable_pt_lim_exp.
Qed.

(** The response weighted by the integrating factor e^(t/T): its
    derivative is the forcing, weighted the same way. *)
Lemma D_weighted (c s a T t : R) :
  T <> 0 ->
  derivable_pt_lim (fun u => exp (u / T) * (c + s * y u a T)) t
                   (exp (t / T) / T * (c + s * sin (a * t))).
Proof.
  intro HT. pose proof (denominator_neq_0 a T) as Hd.
  apply (derivable_pt_lim_ext
           (mult_fct (fun u => exp (u / T))
                     (plus_fct (fct_cte c)
                               (mult_real_fct s (fun u => y u a T))))).
  - intro z; reflexivity.
  - replace (exp (t / T) / T * (c + s * sin (a * t)))
      with (/ T * exp (t / T) * (c + s * y t a T)
            + exp (t / T) * (0 + s * dy t a T)).
    + apply (derivable_pt_lim_mult
               (fun u => exp (u / T))
               (plus_fct (fct_cte c) (mult_real_fct s (fun u => y u a T)))).
      * apply D_exp_growth.
      * apply derivable_pt_lim_plus.
        -- apply derivable_pt_lim_const.
        -- apply derivable_pt_lim_scal, D_y, HT.
    + unfold y, dy, power2 in *; field; split; assumption.
Qed.

(** A function whose derivative is nonnegative inside an interval does
    not decrease on it. *)
Lemma nondecreasing_on (f f' : R -> R) (lo hi : R) :
  (forall t, derivable_pt_lim f t (f' t)) ->
  (forall t, lo < t < hi -> 0 <= f' t) ->
  forall x z, lo <= x -> x <= z -> z <= hi -> f x <= f z.
Proof.
  intros HD Hpos x z Hx Hxz Hz.
  destruct (Req_dec x z) as [E | N]; [subst; lra | ].
  assert (Hlt : lo < hi) by lra.
  pose (pr := fun t => exist (fun l => derivable_pt_abs f t l) (f' t) (HD t)
              : derivable_pt f t).
  apply (derive_increasing_interv_var lo hi f pr Hlt); try lra.
  intros t Ht. cbn. apply Hpos, Ht.
Qed.

Lemma weighted_ge_start (c s a T hi t : R) :
  0 < T ->
  (forall u, 0 < u < hi -> 0 <= c + s * sin (a * u)) ->
  0 <= t <= hi ->
  c <= exp (t / T) * (c + s * y t a T).
Proof.
  intros HT Hpos [H0 Hhi].
  assert (HTn : T <> 0) by lra.
  assert (E : c = exp (0 / T) * (c + s * y 0 a T)).
  { destruct (zero_start a T) as [Hy _]. rewrite Hy.
    replace (0 / T) with 0 by (unfold Rdiv; ring). rewrite exp_0. ring. }
  rewrite E at 1.
  apply (nondecreasing_on
           (fun u => exp (u / T) * (c + s * y u a T))
           (fun u => exp (u / T) / T * (c + s * sin (a * u))) 0 hi);
    try lra.
  - intro u. apply D_weighted, HTn.
  - intros u Hu. apply Rmult_le_pos; [ | apply Hpos, Hu].
    apply Rlt_le, Rdiv_lt_0_compat; [apply exp_pos | exact HT].
Qed.

Lemma exp_cancel (t T : R) : exp (t / T) * exp (- t / T) = 1.
Proof.
  rewrite <- exp_plus.
  replace (t / T + - t / T) with 0 by (unfold Rdiv; ring).
  apply exp_0.
Qed.

Lemma y_rise_bound (t a T : R) :
  0 < T -> 0 <= t ->
  - (1 - exp (- t / T)) <= y t a T <= 1 - exp (- t / T).
Proof.
  intros HT Ht.
  pose proof (exp_pos (t / T)) as Hp.
  pose proof (exp_cancel t T) as Hc.
  assert (Hup : 1 <= exp (t / T) * (1 + (-1) * y t a T)).
  { apply (weighted_ge_start 1 (-1) a T (t + 1) t HT); [ | lra].
    intros u _. pose proof (SIN_bound (a * u)); lra. }
  assert (Hlo : 1 <= exp (t / T) * (1 + 1 * y t a T)).
  { apply (weighted_ge_start 1 1 a T (t + 1) t HT); [ | lra].
    intros u _. pose proof (SIN_bound (a * u)); lra. }
  split.
  - apply (Rmult_le_reg_l (exp (t / T))); [exact Hp | ].
    replace (exp (t / T) * - (1 - exp (- t / T)))
      with (exp (t / T) * exp (- t / T) - exp (t / T)) by ring.
    rewrite Hc. lra.
  - apply (Rmult_le_reg_l (exp (t / T))); [exact Hp | ].
    replace (exp (t / T) * (1 - exp (- t / T)))
      with (exp (t / T) - exp (t / T) * exp (- t / T)) by ring.
    rewrite Hc. lra.
Qed.

Lemma y_window_nonneg (t a T : R) :
  0 < a -> 0 < T -> 0 <= t <= PI / a -> 0 <= y t a T.
Proof.
  intros Ha HT Ht.
  pose proof (exp_pos (t / T)) as Hp.
  assert (H : 0 <= exp (t / T) * (0 + 1 * y t a T)).
  { apply (weighted_ge_start 0 1 a T (PI / a) t HT); [ | exact Ht].
    intros u [Hu0 Hu1].
    assert (Hau : 0 <= a * u <= PI).
    { split; [nra | ].
      apply (Rmult_lt_compat_l a) in Hu1; [ | exact Ha].
      replace (a * (PI / a)) with PI in Hu1 by (field; lra). lra. }
    pose proof (sin_ge_0 (a * u) (proj1 Hau) (proj2 Hau)). lra. }
  nra.
Qed.

(** X10: for T > 0 and t >= 0, whatever a is, the amplitude ratio stays
    under the rise curve 1 - e^(-t/T) in absolute value; in particular it
    is strictly between -1 and 1. *)
Theorem response_below_rise (t a T : R) :
  0 < T -> 0 <= t ->
  Rabs (y t a T) <= 1 - exp (- t / T) /\ Rabs (y t a T) < 1.
Proof.
  intros HT Ht.
  pose proof (exp_pos (- t / T)) as Hn.
  pose proof (y_rise_bound t a T HT Ht) as Hb.
  assert (HR : Rabs (y t a T) <= 1 - exp (- t / T)) by (apply Rabs_le; exact Hb).
  split; [exact HR | lra].
Qed.

Lemma response_below_rise_witness :
  (0 < 1 /\ 0 <= 2) /\
  Rabs (y 2 3 1) <= 1 - exp (- 2 / 1) /\ Rabs (y 2 3 1) < 1.
Proof. split; [lra | apply (response_below_rise 2 3 1); lra]. Defined.

(** X11: for a > 0 and T > 0 the amplitude ratio is nonnegative during
    the whole crossing, 0 <= t <= pi/a, and it is strictly positive when
    the jogger leaves the span, at t = pi/a. *)
Theorem response_nonneg_in_window (a T : R) :
  0 < a -> 0 < T ->
  (forall t : R, 0 <= t <= PI / a -> 0 <= y t a T) /\
  0 < y (PI / a) a T.
Proof.
  intros Ha HT. split.
  - intros t Ht. apply y_window_nonneg; assumption.
  - pose proof (denominator_ge_1 a T) as Hd.
    pose proof (exp_pos (- (PI / a) / T)) as Hp.
    unfold y.
    replace (a * (PI / a)) with PI by (field; lra).
    rewrite sin_PI, cos_PI.
    apply Rdiv_lt_0_compat; [ | lra].
    assert (0 < a * T) by (apply Rmult_lt_0_compat; assumption).
    nra.
Qed.

Lemma response_nonneg_in_window_witness :
  (0 < 1 /\ 0 < 1) /\
  (forall t : R, 0 <= t <= PI / 1 -> 0 <= y t 1 1) /\
  0 < y (PI / 1) 1 1.
Proof. split; [lra | apply (response_nonneg_in_window 1 1); lra]. Defined.

(** ** Where the peak is *)

(** For u > 0, e^(-u) times u is below 1. *)
Lemma exp_decay_bound (u : R) : 0 < u -> exp (- u) * u < 1.
Proof.
  intro Hu.
  pose proof (exp_pos (- u)) as Hp.
  assert (Hc : exp (- u) * exp u = 1).
  { rewrite <- exp_plus. replace (- u + u) with 0 by ring. apply exp_0. }
  assert (Hi : 1 + u < exp u) by (apply exp_ineq1; lra).
  nra.
Qed.

Lemma PI_gt_3 : 3 < PI.
Proof. pose proof PI2_3_2; lra. Qed.

Lemma start_fraction : 0.75 = 3 / 4.
Proof. lra. Qed.

Lemma dy_half_window_pos (a T : R) : 0 < a -> 0 < T -> 0 < dy (PI / (2 * a)) a T.
Proof.
  intros Ha HT.
  pose proof (denominator_ge_1 a T) as Hd.
  pose proof PI_gt_3 as Hpi.
  set (u := PI / (2 * a) / T).
  assert (Hu : 0 < u).
  { unfold u. repeat apply Rdiv_lt_0_compat; lra. }
  assert (Hux : u * (a * T) = PI / 2) by (unfold u; field; lra).
  pose proof (exp_decay_bound u Hu) as He.
  pose proof (exp_pos (- u)) as Hp.
  assert (HaT : 0 < a * T) by (apply Rmult_lt_0_compat; assumption).
  assert (HE : exp (- u) < a * T).
  { assert (exp (- u) * (PI / 2) < a * T) by (rewrite <- Hux; nra). nra. }
  unfold dy.
  replace (a * (PI / (2 * a))) with (PI / 2) by (field; lra).
  replace (- (PI / (2 * a)) / T) with (- u) by (unfold u, Rdiv; ring).
  rewrite sin_PI2, cos_PI2.
  apply Rdiv_lt_0_compat; [ | lra].
  unfold power2. nra.
Qed.

Lemma dy_window_end_neg (a T : R) : 0 < a -> dy (PI / a) a T < 0.
Proof.
  intro Ha.
  pose proof (denominator_ge_1 a T) as Hd.
  pose proof (exp_pos (- (PI / a) / T)) as Hp.
  unfold dy.
  replace (a * (PI / a)) with PI by (field; lra).
  rewrite sin_PI, cos_PI.
  assert (Hn : power2 a * T * 0 + a * -1 - a * exp (- (PI / a) / T) < 0) by nra.
  assert (Hi : 0 < / (power2 (a * T) + 1)) by (apply Rinv_0_lt_compat; lra).
  unfold Rdiv. nra.
Qed.

Lemma dy_continuous (a T : R) : T <> 0 -> continuity (fun t => - dy t a T).
Proof.
  intros HT t. apply derivable_continuous_pt.
  exists (- ddy t a T).
  apply (derivable_pt_lim_opp (fun s => dy s a T)), D_dy, HT.
Qed.

(** X12: for a > 0 and T > 0 the response has a stationary point in the
    second half of the crossing: dy(t,a,T) = 0 for some t strictly between
    pi/(2a) and pi/a.  The start value 0.75*pi/a of the search is the
    middle of that interval. *)
Theorem stationary_point_in_second_half (a T : R) :
  0 < a -> 0 < T ->
  (exists t : R, PI / (2 * a) < t < PI / a /\ dy t a T = 0) /\
  PI / a * 0.75 = (PI / (2 * a) + PI / a) / 2.
Proof.
  intros Ha HT. split; [ | rewrite start_fraction; field; lra].
  pose proof (dy_half_window_pos a T Ha HT) as Hl.
  pose proof (dy_window_end_neg a T Ha) as Hr.
  pose proof PI_RGT_0 as Hpi.
  assert (Hlt : PI / (2 * a) < PI / a).
  { assert (Hia : 0 < / a) by (apply Rinv_0_lt_compat; exact Ha).
    replace (PI / (2 * a)) with (PI * / a / 2) by (field; lra).
    unfold Rdiv. nra. }
  assert (HTn : T <> 0) by lra.
  destruct (IVT (fun t => - dy t a T) (PI / (2 * a)) (PI / a)
                (dy_continuous a T HTn) Hlt) as [z [[Hz1 Hz2] Hz]]; try lra.
  exists z.
  assert (E : dy z a T = 0) by lra.
  split; [ | exact E].
  split.
  - destruct Hz1 as [Hz1 | Hz1]; [exact Hz1 | ].
    rewrite <- Hz1 in E. lra.
  - destruct Hz2 as [Hz2 | Hz2]; [exact Hz2 | ].
    rewrite Hz2 in E. lra.
Qed.

Lemma stationary_point_in_second_half_witness :
  (0 < 1 /\ 0 < 1) /\
  (exists t : R, PI / (2 * 1) < t < PI / 1 /\ dy t 1 1 = 0) /\
  PI / 1 * 0.75 = (PI / (2 * 1) + PI / 1) / 2.
Proof. split; [lra | apply (stationary_point_in_second_half 1 1); lra]. Defined.

(** X13: for a > 0 and T > 0 the curvature at the start value of the
    search is strictly negative, ddy(0.75*pi/a, a, T) < 0: the first
    Newton step never divides by zero. *)
Theorem curvature_at_start_negative (a T : R) :
  0 < a -> 0 < T -> ddy (PI / a * 0.75) a T < 0.
Proof.
  intros Ha HT. rewrite start_fraction.
  pose proof (denominator_ge_1 a T) as Hd.
  pose proof PI_gt_3 as Hpi.
  set (u := PI / a * (3 / 4) / T).
  assert (Hu : 0 < u).
  { unfold u. repeat apply Rdiv_lt_0_compat; try lra.
    apply Rmult_lt_0_compat; [apply Rdiv_lt_0_compat | ]; lra. }
  assert (Hux : u * (a * T) = 3 / 4 * PI) by (unfold u; field; lra).
  pose proof (exp_decay_bound u Hu) as He.
  pose proof (exp_pos (- u)) as Hp.
  assert (HaT : 0 < a * T) by (apply Rmult_lt_0_compat; assumption).
  assert (HE : exp (- u) * (9 / 4) < a * T).
  { assert (exp (- u) * (3 / 4 * PI) < a * T) by (rewrite <- Hux; nra). nra. }
  set (s := / sqrt 2).
  assert (Hs0 : 0 < s) by (apply Rinv_0_lt_compat, sqrt_lt_R0; lra).
  assert (Hs2 : s * s = / 2).
  { unfold s. rewrite <- Rinv_mult, sqrt_sqrt by lra. reflexivity. }
  assert (Hs : 4 / 9 < s) by nra.
  unfold ddy.
  replace (a * (PI / a * (3 / 4))) with (3 * (PI / 4)) by (field; lra).
  replace (- (PI / a * (3 / 4)) / T) with (- u) by (unfold u, Rdiv; ring).
  rewrite cos_3PI4, sin_3PI4.
  replace (-1 / sqrt 2) with (- s) by (unfold s, Rdiv; ring).
  replace (1 / sqrt 2) with s by (unfold s, Rdiv; ring).
  assert (Hq : a * exp (- u) / T < power2 a * (4 / 9)).
  { apply (Rmult_lt_reg_r T); [exact HT | ].
    replace (a * exp (- u) / T * T) with (a * exp (- u)) by (field; lra).
    unfold power2. nra. }
  assert (Hn : power3 a * T * - s - power2 a * s + a * exp (- u) / T < 0).
  { assert (0 < power2 a) by (unfold power2; nra).
    assert (0 < power3 a * T * s).
    { unfold power3. repeat apply Rmult_lt_0_compat; assumption. }
    nra. }
  assert (Hi : 0 < / (power2 (a * T) + 1)) by (apply Rinv_0_lt_compat; lra).
  unfold Rdiv at 2. nra.
Qed.

Lemma curvature_at_start_negative_witness :
  (0 < 1 /\ 0 < 1) /\ ddy (PI / 1 * 0.75) 1 1 < 0.
Proof. split; [lra | apply (curvature_at_start_negative 1 1); lra]. Defined.

(** ** What a run reports *)

Lemma newtonsMethod_window (a T : R) :
  0 < a -> 0 <= newtonsMethod a T <= PI / a.
Proof.
  intro Ha. pose proof (t_max_pos a Ha) as Hm.
  unfold newtonsMethod. cbv zeta.
  apply (for_loop_invariant (fun t => 0 <= t <= PI / a)).
  - intros t _. apply loop_body_range; lra.
  - lra.
Qed.

(** The window bound of the search is the time the jogger needs for the
    span. *)
Lemma window_is_walk_time (L v : R) : 0 < L -> 0 < v -> PI / (PI * v / L) = L / v.
Proof. intros HL Hv. pose proof PI_RGT_0. field. repeat split; lra. Qed.

Lemma main_runs (argv : list string) (L v f z m m0 : R) :
  main argv (console_input argv L v f z m) m0
  = let v := velocity_used argv v in
    let a := PI * v / L in
    let T := 1 / (2 * PI * f * z) in
    let t := newtonsMethod a T in
    Report (joggerLoadFactor f * 1250)
            (if plot (processArgs argv)
             then map (fun i => let t := INR i * 20.0 / 100 in (t, y t a T))
                      (seq 0 100)
             else [])
            t (L / v) (t * 100 / (L / v)) (y t a T * 100)
            (y t a T * 1250 * joggerLoadFactor f / (2 * m * z)).
Proof.
  unfold main, console_input, velocity_used. cbv zeta.
  destruct (overrideVelocity (processArgs argv)); reflexivity.
Qed.

Lemma velocity_used_pos (argv : list string) (v : R) :
  0 < v -> 0 < velocity_used argv v.
Proof.
  intro Hv. unfold velocity_used.
  destruct (overrideVelocity (processArgs argv)); lra.
Qed.

Lemma time_constant_pos (f z : R) : 0 < f -> 0 < z -> 0 < 1 / (2 * PI * f * z).
Proof.
  intros Hf Hz. pose proof PI_RGT_0 as Hpi.
  apply Rdiv_lt_0_compat; [lra | ].
  apply Rmult_lt_0_compat; [apply Rmult_lt_0_compat | ]; lra.
Qed.

(** X14: for positive L, v, f and z the run reports a peak time between
    0 and the time of the crossing L/v, hence a percentage between 0 and
    100. *)
Theorem main_peak_within_crossing (argv : list string) (L v f z m m0 : R) :
  0 < L -> 0 < v -> 0 < f -> 0 < z ->
  exists r : report,
    main argv (console_input argv L v f z m) m0 = r /\
    walk_time r = L / velocity_used argv v /\
    0 <= t_peak r <= walk_time r /\
    0 <= t_percent r <= 100.
Proof.
  intros HL Hv _ _. rewrite main_runs. cbv zeta.
  eexists. split; [reflexivity | ]. cbn [walk_time t_peak t_percent].
  pose proof (velocity_used_pos argv v Hv) as Hv'.
  set (v' := velocity_used argv v) in *.
  set (T := 1 / (2 * PI * f * z)).
  assert (Ha : 0 < PI * v' / L).
  { pose proof PI_RGT_0. apply Rdiv_lt_0_compat; nra. }
  pose proof (newtonsMethod_window (PI * v' / L) T Ha) as Hw.
  rewrite (window_is_walk_time L v' HL Hv') in Hw.
  set (t := newtonsMethod (PI * v' / L) T) in *.
  assert (Hwt : 0 < L / v') by (apply Rdiv_lt_0_compat; assumption).
  split; [reflexivity | ]. split; [exact Hw | ].
  assert (Hi : 0 < / (L / v')) by (apply Rinv_0_lt_compat; exact Hwt).
  assert (E : 100 = (L / v') * 100 / (L / v')) by (field; lra).
  split.
  - unfold Rdiv at 1. apply Rmult_le_pos; [nra | lra].
  - rewrite E at 2. unfold Rdiv at 1 4.
    apply Rmult_le_compat_r; [lra | nra].
Qed.

Lemma main_peak_within_crossing_witness :
  (0 < 10 /\ 0 < 3 /\ 0 < 2.8 /\ 0 < 0.006) /\
  exists r : report,
    main ["jogger"]%string (console_input ["jogger"]%string 10 3 2.8 0.006 1000)
    0 = r /\
    walk_time r = 10 / velocity_used ["jogger"]%string 3 /\
    0 <= t_peak r <= walk_time r /\
    0 <= t_percent r <= 100.
Proof.
  split; [lra | ].
  apply (main_peak_within_crossing ["jogger"]%string 10 3 2.8 0.006 1000 0); lra.
Defined.

(** X15: for positive L, v, f, z, m the run reports a jogger load between
    0 and 1250 N, a peak amplitude of at least 0 and less than 100 percent,
    and a maximal acceleration between 0 and load/(2*m*z), which is
    below 1250/(2*m*z). *)
Theorem main_report_bounds (argv : list string) (L v f z m m0 : R) :
  0 < L -> 0 < v -> 0 < f -> 0 < z -> 0 < m ->
  exists r : report,
    main argv (console_input argv L v f z m) m0 = r /\
    0 <= jogger_load r <= 1250 /\
    0 <= y_max_percent r < 100 /\
    0 <= max_acceleration r <= jogger_load r / (2 * m * z) /\
    max_acceleration r < 1250 / (2 * m * z).
Proof.
  intros HL Hv Hf Hz Hm. rewrite main_runs. cbv zeta.
  eexists. split; [reflexivity | ].
  cbn [jogger_load y_max_percent max_acceleration].
  pose proof (velocity_used_pos argv v Hv) as Hv'.
  set (v' := velocity_used argv v) in *.
  pose proof (time_constant_pos f z Hf Hz) as HT.
  set (T := 1 / (2 * PI * f * z)) in *.
  assert (Ha : 0 < PI * v' / L).
  { pose proof PI_RGT_0. apply Rdiv_lt_0_compat; nra. }
  pose proof (newtonsMethod_window (PI * v' / L) T Ha) as Hw.
  set (t := newtonsMethod (PI * v' / L) T) in *.
  pose proof (y_window_nonneg t (PI * v' / L) T Ha HT Hw) as Hy0.
  pose proof (y_rise_bound t (PI * v' / L) T HT (proj1 Hw)) as [_ Hy1].
  pose proof (exp_pos (- t / T)) as He.
  set (Y := y t (PI * v' / L) T) in *.
  assert (HF : 0 <= joggerLoadFactor f <= 1) by (load_factor_cases f; lra).
  set (F := joggerLoadFactor f) in *.
  assert (Hd : 0 < / (2 * m * z)).
  { apply Rinv_0_lt_compat. apply Rmult_lt_0_compat; lra. }
  unfold Rdiv.
  assert (HYF : 0 <= Y * F) by (apply Rmult_le_pos; lra).
  assert (HYF1 : Y * F <= F) by nra.
  assert (HYF2 : Y * F < 1) by nra.
  repeat split; try lra; nra.
Qed.

Lemma main_report_bounds_witness :
  (0 < 10 /\ 0 < 3 /\ 0 < 2.8 /\ 0 < 0.006 /\ 0 < 1000) /\
  exists r : report,
    main ["jogger"]%string (console_input ["jogger"]%string 10 3 2.8 0.006 1000)
    0 = r /\
    0 <= jogger_load r <= 1250 /\
    0 <= y_max_percent r < 100 /\
    0 <= max_acceleration r <= jogger_load r / (2 * 1000 * 0.006) /\
    max_acceleration r < 1250 / (2 * 1000 * 0.006).
Proof.
  split; [lra | ].
  apply (main_report_bounds ["jogger"]%string 10 3 2.8 0.006 1000 0); lra.
Defined.

(** X16: the sample table, for positive L, v, f and z.  Without the flag
    "-p" no sample is printed.  With it the table has 100 rows; each row
    is a time between 0 and 19.8 (the step is 0.2 and 20 is not reached)
    with the amplitude ratio at that time, which is strictly between -1
    and 1. *)
Theorem main_plot_samples (argv : list string) (L v f z m m0 : R) :
  0 < L -> 0 < v -> 0 < f -> 0 < z ->
  exists r : report,
    main argv (console_input argv L v f z m) m0 = r /\
    (plot (processArgs argv) = false -> plot_samples r = []) /\
    (plot (processArgs argv) = true ->
       List.length (plot_samples r) = 100%nat /\
       forall t s : R, In (t, s) (plot_samples r) ->
         0 <= t <= 19.8 /\
         s = y t (PI * velocity_used argv v / L) (1 / (2 * PI * f * z)) /\
         Rabs s < 1).
Proof.
  intros _ _ Hf Hz. rewrite main_runs. cbv zeta.
  eexists. split; [reflexivity | ]. cbn [plot_samples].
  pose proof (time_constant_pos f z Hf Hz) as HT.
  destruct (plot (processArgs argv)); split; intro H; try discriminate;
    [ | reflexivity].
  - split; [rewrite length_map, length_seq; reflexivity | ].
    intros t s Hin. apply in_map_iff in Hin.
    destruct Hin as [i [Hi Hr]]. apply in_seq in Hr.
    injection Hi as Ht Hs.
    assert (Hi0 : 0 <= INR i) by apply pos_INR.
    assert (Hi99 : INR i <= 99).
    { replace 99 with (INR 99) by (cbn; lra). apply le_INR.
      destruct Hr as [_ Hr]. apply PeanoNat.Nat.lt_succ_r. exact Hr. }
    assert (Hrange : 0 <= t <= 19.8) by (rewrite <- Ht; lra).
    split; [exact Hrange | ]. split; [rewrite <- Hs, Ht; reflexivity | ].
    rewrite <- Hs, Ht.
    pose proof (y_rise_bound t (PI * velocity_used argv v / L) _ HT
                             (proj1 Hrange)) as Hb.
    pose proof (exp_pos (- t / (1 / (2 * PI * f * z)))) as He.
    apply Rabs_def1; lra.
Qed.

Lemma main_plot_samples_witness :
  (0 < 10 /\ 0 < 3 /\ 0 < 2.8 /\ 0 < 0.006) /\
  exists r : report,
    main ["jogger"; "-p"]%string
         (console_input ["jogger"; "-p"]%string 10 3 2.8 0.006 1000) 0 = r /\
    (plot (processArgs ["jogger"; "-p"]%string) = false -> plot_samples r = []) /\
    (plot (processArgs ["jogger"; "-p"]%string) = true ->
       List.length (plot_samples r) = 100%nat /\
       forall t s : R, In (t, s) (plot_samples r) ->
         0 <= t <= 19.8 /\
         s = y t (PI * velocity_used ["jogger"; "-p"]%string 3 / 10)
               (1 / (2 * PI * 2.8 * 0.006)) /\
         Rabs s < 1).
Proof.
  split; [lra | ].
  apply (main_plot_samples ["jogger"; "-p"]%string 10 3 2.8 0.006 1000 0); lra.
Defined.

(** X17: for a positive structural frequency outside the open band
    (1.9, 3.5) and positive L, v, z, m the run reports no load and no
    acceleration: both printed values are 0. *)
Theorem main_out_of_band (argv : list string) (L v f z m m0 : R) :
  0 < L -> 0 < v -> 0 < f -> 0 < z -> 0 < m ->
  f <= 1.9 \/ f >= 3.5 ->
  exists r : report,
    main argv (console_input argv L v f z m) m0 = r /\
    jogger_load r = 0 /\
    max_acceleration r = 0.
Proof.
  intros _ _ _ Hz Hm Hf. rewrite main_runs. cbv zeta.
  eexists. split; [reflexivity | ]. cbn [jogger_load max_acceleration].
  assert (E : joggerLoadFactor f = 0) by (load_factor_cases f; lra).
  rewrite E. split; [ring | ].
  unfold Rdiv. ring.
Qed.

Lemma main_out_of_band_witness :
  (0 < 10 /\ 0 < 3 /\ 0 < 4 /\ 0 < 0.006 /\ 0 < 1000 /\
   (4 <= 1.9 \/ 4 >= 3.5)) /\
  exists r : report,
    main ["jogger"]%string (console_input ["jogger"]%string 10 3 4 0.006 1000)
    0 = r /\
    jogger_load r = 0 /\
    max_acceleration r = 0.
Proof.
  assert (H : 4 <= 1.9 \/ 4 >= 3.5) by (right; lra).
  split; [repeat split; try lra; exact H | ].
  apply (main_out_of_band ["jogger"]%string 10 3 4 0.006 1000 0); lra.
Defined.
